(** * A rover on an integer grid: the command engine of [rover.h]

    The development embeds the classes of [rover.h] ([State], [Sensor],
    [Operation] and its subclasses, [Rover], [RoverBuilder]) and proves
    the behaviour of landing, of the single operations, of composite
    operations and of the command dispatch loop, then that of the sensor
    loop, of the builder and of the text written for a rover. *)

From Stdlib Require Import Ascii String.
From stdpp Require Import gmap strings list pretty.

Local Open Scope Z_scope.

(** ** Machine integers

    [coordinate_t] is [int32_t] and a direction is a pair of [int]; both are
    32-bit two's complement numbers, kept here as [Z] with the wrap-around
    of the arithmetic written out. *)

Definition INT_MIN : Z := -2147483648.
Definition INT_MAX : Z := 2147483647.

Definition in_int (z : Z) : Prop := INT_MIN ≤ z ≤ INT_MAX.

Definition wrap_int (z : Z) : Z := (z + 2147483648) `mod` 4294967296 - 2147483648.

Definition int_add (a b : Z) : Z := wrap_int (a + b).
Definition int_sub (a b : Z) : Z := wrap_int (a - b).
Definition int_neg (a : Z) : Z := wrap_int (- a).

Definition coordinate_t : Type := Z.
Definition direction_t : Type := Z * Z.

(** ** Directions *)

Module Direction.
Definition NORTH : direction_t := (0, 1).
Definition EAST : direction_t := (1, 0).
Definition SOUTH : direction_t := (0, -1).
Definition WEST : direction_t := (-1, 0).
End Direction.

(** ** State: the snapshot a rover holds *)

Record State : Type := mkState {
  getX : coordinate_t;
  getY : coordinate_t;
  getDirection : direction_t;
  isStopped : bool
}.

(** [State() = default]: every member is value-initialised. *)
Definition State_default : State := mkState 0 0 (0, 0) false.

Definition setStopped (st : State) (s : bool) : State :=
  mkState (getX st) (getY st) (getDirection st) s.

(** ** Operations: the closed hierarchy below [Operation] *)

#[warnings="-register-all"]
Inductive Operation : Type :=
  | MoveForward
  | MoveBackward
  | RotateLeft
  | RotateRight
  | Compose (operations : list Operation).

(** ** Sensors

    [Sensor] is an interface with one non-const virtual method: a sensor is
    an object whose [is_safe] answers and may change the object. A sensor
    class is a type [T] of sensor objects with its [is_safe]; the sensors of
    one rover are distinct objects, as [add_sensor] takes each one by
    [unique_ptr]. *)

Class Sensor (T : Type) := is_safe : T → coordinate_t → coordinate_t → bool * T.

Inductive exception : Type := RoverNotLanded.

Inductive outcome : Type :=
  | Returned
  | Thrown (e : exception).

(** ** The rover

    The rover is the only holder of its [State] object, so the state is kept
    by value: [setStopped] on it and [setState] both replace the field. The
    methods that change the rover return the rover they leave. *)

Section rover.
Context {T : Type} `{!Sensor T}.

Record Rover : Type := mkRover {
  sensors : list T;
  state : State;
  operations : gmap ascii Operation;
  landed : bool
}.

Definition setState (rover : Rover) (s : State) : Rover :=
  mkRover (sensors rover) s (operations rover) (landed rover).

Definition setSensors (rover : Rover) (ss : list T) : Rover :=
  mkRover ss (state rover) (operations rover) (landed rover).

(** The constructor [Rover(operationsMap, sensorVec)]. *)
Definition Rover_new (operationsMap : gmap ascii Operation) (sensorVec : list T) : Rover :=
  mkRover sensorVec State_default operationsMap false.

Definition land (coordinates : Z * Z) (direction : direction_t) (rover : Rover) : Rover :=
  let x := fst coordinates in
  let y := snd coordinates in
  let new_state := mkState x y direction false in
  setState (mkRover (sensors rover) (state rover) (operations rover) true) new_state.

(** The loop of [danger_exists] over the sensor vector: it returns at the
    first sensor that reports the cell unsafe; the sensors after it are not
    called. *)
Fixpoint danger_loop (ss : list T) (new_x new_y : coordinate_t) : bool * list T :=
  match ss with
  | [] => (false, [])
  | sensor :: rest =>
      let '(safe, sensor') := is_safe sensor new_x new_y in
      if negb safe then (true, sensor' :: rest)
      else let '(danger, rest') := danger_loop rest new_x new_y in
           (danger, sensor' :: rest')
  end.

Definition danger_exists (rover : Rover) (new_x new_y : coordinate_t) : bool * Rover :=
  let '(danger, ss) := danger_loop (sensors rover) new_x new_y in
  (danger, setSensors rover ss).

Definition execute_move (rover : Rover) (forward : bool) : Rover :=
  let direction := getDirection (state rover) in
  let new_x :=
    if forward then int_add (getX (state rover)) (fst direction)
    else int_sub (getX (state rover)) (fst direction) in
  let new_y :=
    if forward then int_add (getY (state rover)) (snd direction)
    else int_sub (getY (state rover)) (snd direction) in
  let '(danger, rover) := danger_exists rover new_x new_y in
  let new_state :=
    if danger
    then mkState (getX (state rover)) (getY (state rover)) direction true
    else mkState new_x new_y direction false in
  setState rover new_state.

Definition execute_rotate (rover : Rover) (clockwise : bool) : Rover :=
  let new_x := getX (state rover) in
  let new_y := getY (state rover) in
  let stopped := false in
  let d := getDirection (state rover) in
  let direction :=
    if clockwise then (snd d, int_neg (fst d))
    else (int_neg (snd d), fst d) in
  setState rover (mkState new_x new_y direction stopped).

(** [Operation::execute], with the loop of [Compose::execute] as the
    inner fixpoint. *)
Fixpoint Operation_execute (op : Operation) (rover : Rover) : Rover :=
  match op with
  | MoveForward => execute_move rover true
  | MoveBackward => execute_move rover false
  | RotateLeft => execute_rotate rover false
  | RotateRight => execute_rotate rover true
  | Compose ops =>
      (fix compose_loop (ops : list Operation) (rover : Rover) : Rover :=
         match ops with
         | [] => rover
         | operation :: rest =>
             if isStopped (state rover) then rover
             else compose_loop rest (Operation_execute operation rover)
         end) ops rover
  end.

(** The [for] loop of [Rover::execute]. *)
Fixpoint execute_loop (commands : string) (rover : Rover) : Rover :=
  match commands with
  | EmptyString => rover
  | String key rest =>
      match operations rover !! key with
      | None => setState rover (setStopped (state rover) true)
      | Some op => execute_loop rest (Operation_execute op rover)
      end
  end.

(** [Rover::execute]: the outcome says whether the call returned or threw,
    the rover is the object as the call leaves it. *)
Definition execute (commands : string) (rover : Rover) : outcome * Rover :=
  if negb (landed rover) then (Thrown RoverNotLanded, rover)
  else (Returned, execute_loop commands (setState rover (setStopped (state rover) false))).

(** ** The builder *)

Record RoverBuilder : Type := mkRoverBuilder {
  builder_operations : gmap ascii Operation;
  builder_sensors : list T
}.

Definition RoverBuilder_new : RoverBuilder := mkRoverBuilder ∅ [].

Definition program_command (key : ascii) (op : Operation) (b : RoverBuilder) : RoverBuilder :=
  mkRoverBuilder (<[key := op]> (builder_operations b)) (builder_sensors b).

Definition add_sensor (sensor : T) (b : RoverBuilder) : RoverBuilder :=
  mkRoverBuilder (builder_operations b) (builder_sensors b ++ [sensor]).

Definition build (b : RoverBuilder) : Rover :=
  Rover_new (builder_operations b) (builder_sensors b).

(** ** Clients

    What a client can do with a rover it holds: call [land] or call
    [execute]; a [RoverNotLanded] thrown by [execute] is caught and the
    client goes on with the same object. *)

Inductive call : Type :=
  | call_land (coordinates : Z * Z) (direction : direction_t)
  | call_execute (commands : string).

Definition is_land (c : call) : bool :=
  match c with call_land _ _ => true | call_execute _ => false end.

Definition do_call (rover : Rover) (c : call) : Rover :=
  match c with
  | call_land coordinates direction => land coordinates direction rover
  | call_execute commands => snd (execute commands rover)
  end.

Definition run_calls (history : list call) (rover : Rover) : Rover :=
  foldl do_call rover history.

(** ** Notions used to state the properties *)

(** Sensors whose [is_safe] leaves them as they are. *)
Definition side_effect_free (ss : list T) : Prop :=
  ∀ s x y, s ∈ ss → (is_safe s x y).2 = s.

(** The operations of a list applied one after the other, first to last. *)
Definition apply_all (ops : list Operation) (rover : Rover) : Rover :=
  foldl (λ r o, Operation_execute o r) rover ops.

(** Whether every token of a command string has an operation bound. *)
Fixpoint all_registered (m : gmap ascii Operation) (commands : string) : bool :=
  match commands with
  | EmptyString => true
  | String key rest =>
      match m !! key with
      | Some _ => all_registered m rest
      | None => false
      end
  end.

End rover.

Arguments Rover T : clear implicits.
Arguments RoverBuilder T : clear implicits.

(** ** A sensor class for the examples

    A sensor that knows a list of hazardous cells and counts how often it
    has been asked. *)

Record HazardSensor : Type := mkHazardSensor {
  hazards : list (Z * Z);
  queries : nat
}.

#[global] Instance HazardSensor_is_safe : Sensor HazardSensor := λ s x y,
  (negb (bool_decide ((x, y) ∈ hazards s)), mkHazardSensor (hazards s) (S (queries s))).


(** The rover of the examples: f, b, l and r bound to the four single
    operations, c bound to a composite, one sensor that rejects the cell
    (0, 2); landed at (0, 0) facing north. *)
Definition example_builder : RoverBuilder HazardSensor :=
  add_sensor (mkHazardSensor [(0, 2)] 0)
    (program_command "c" (Compose [MoveForward; RotateRight; MoveForward])
      (program_command "r" RotateRight
        (program_command "l" RotateLeft
          (program_command "b" MoveBackward
            (program_command "f" MoveForward RoverBuilder_new))))).

Definition example_rover : Rover HazardSensor :=
  land (0, 0) Direction.NORTH (build example_builder).

(** The same registry without any sensor. *)
Definition free_rover : Rover HazardSensor :=
  land (0, 0) Direction.NORTH
    (Rover_new (builder_operations example_builder) []).

(** A sensor class without state that rejects every cell. *)
Inductive Fence : Type := fence.

#[global] Instance Fence_is_safe : Sensor Fence := λ s _ _, (false, s).

(** The registry of the examples behind a fence. *)
Definition fenced_rover : Rover Fence :=
  land (0, 0) Direction.NORTH
    (Rover_new (builder_operations example_builder) [fence]).

(** The example rover with three sensors: the first rejects (5, 5), the
    second and the third reject (0, 2). *)
Definition watched_rover : Rover HazardSensor :=
  setSensors example_rover
    [mkHazardSensor [(5, 5)] 0; mkHazardSensor [(0, 2)] 0; mkHazardSensor [(0, 2)] 0].

(** ** Names of directions and the text of a rover *)

(** The four directions of [Direction]. *)
Definition canonical (direction : direction_t) : Prop :=
  direction ∈ [Direction.NORTH; Direction.EAST; Direction.SOUTH; Direction.WEST].

(** [Direction::getName]. *)
Definition getName (direction : direction_t) : string :=
  if bool_decide (direction = Direction.NORTH) then "NORTH"
  else if bool_decide (direction = Direction.EAST) then "EAST"
  else if bool_decide (direction = Direction.SOUTH) then "SOUTH"
  else if bool_decide (direction = Direction.WEST) then "WEST"
  else "unknown".

(** The characters a decimal number is written with. *)
Definition numerals : list ascii :=
  ["0"; "1"; "2"; "3"; "4"; "5"; "6"; "7"; "8"; "9"; "-"]%char.

(** Whether an operation is free of moves, at every depth. *)
Fixpoint moveless (op : Operation) : bool :=
  match op with
  | MoveForward | MoveBackward => false
  | RotateLeft | RotateRight => true
  | Compose ops => forallb moveless ops
  end.

Section clients.
Context {T : Type} `{!Sensor T}.

(** [operator<<] on a rover. The stream is the text written so far; numbers
    are written as the stream writes an [int] by default, in decimal with a
    minus sign for the negative ones. *)
Definition print (output : string) (r : Rover T) : string :=
  let name := getName (getDirection (state r)) in
  if bool_decide (name = "unknown") then output +:+ name
  else
    let output :=
      (((((output +:+ "(") +:+ pretty (getX (state r))) +:+ ", ")
          +:+ pretty (getY (state r))) +:+ ") ") +:+ name in
    if isStopped (state r) then output +:+ " stopped" else output.

(** A builder programmed with a list of bindings, first to last. *)
Definition program_all (bindings : list (ascii * Operation)) (b : RoverBuilder T)
    : RoverBuilder T :=
  foldl (λ b kv, program_command kv.1 kv.2 b) b bindings.

(** A builder given a list of sensors, first to last. *)
Definition add_all (new : list T) (b : RoverBuilder T) : RoverBuilder T :=
  foldl (λ b sensor, add_sensor sensor b) b new.

End clients.

(** * Properties *)

(** ** Machine arithmetic *)

Ltac solve_in_int := unfold in_int, INT_MIN, INT_MAX; simpl; lia.

Lemma wrap_int_id (z : Z) : in_int z → wrap_int z = z.
Proof.
  unfold in_int, INT_MIN, INT_MAX, wrap_int. intros Hz.
  rewrite Z.mod_small; lia.
Qed.

Lemma wrap_int_in_int (z : Z) : in_int (wrap_int z).
Proof.
  unfold in_int, INT_MIN, INT_MAX, wrap_int.
  pose proof (Z.mod_pos_bound (z + 2147483648) 4294967296). lia.
Qed.

Lemma int_add_exact (a b : Z) : in_int (a + b) → int_add a b = a + b.
Proof. apply wrap_int_id. Qed.

Lemma int_sub_exact (a b : Z) : in_int (a - b) → int_sub a b = a - b.
Proof. apply wrap_int_id. Qed.

Lemma int_neg_exact (a : Z) : in_int (- a) → int_neg a = - a.
Proof. apply wrap_int_id. Qed.

(** Negation is an involution on the whole [int] range, [INT_MIN] included
    (which it maps to itself). *)
Lemma int_neg_involutive (a : Z) : in_int a → int_neg (int_neg a) = a.
Proof.
  unfold in_int, INT_MIN, INT_MAX, int_neg, wrap_int. intros Ha.
  destruct (decide (a = -2147483648)) as [->|Hne]; [reflexivity|].
  rewrite (Z.mod_small (- a + 2147483648)) by lia.
  rewrite Z.mod_small; lia.
Qed.

Section rover_facts.
Context {T : Type} `{!Sensor T}.
Implicit Types (rover : Rover T) (ss : list T) (op : Operation).
Implicit Types (forward clockwise : bool) (x y : coordinate_t).

(** ** The sensor loop *)

Lemma danger_loop_true ss x y :
  (danger_loop ss x y).1 = true ↔ ∃ s, s ∈ ss ∧ (is_safe s x y).1 = false.
Proof.
  induction ss as [|s ss IH]; simpl.
  - split; [done | intros (s & Hs & _); by apply elem_of_nil in Hs].
  - destruct (is_safe s x y) as [safe s'] eqn:Hsafe.
    destruct safe; simpl.
    + destruct (danger_loop ss x y) as [danger rest'] eqn:Hloop; simpl in *.
      rewrite IH. split.
      * intros (s0 & Hs0 & Hun). exists s0. split; [apply elem_of_cons; by right | done].
      * intros (s0 & Hs0 & Hun). apply elem_of_cons in Hs0 as [-> | Hs0].
        -- rewrite Hsafe in Hun. done.
        -- by exists s0.
    + split; [|done]. intros _. exists s. split; [apply elem_of_cons; by left|].
      by rewrite Hsafe.
Qed.

Lemma danger_loop_false ss x y :
  (danger_loop ss x y).1 = false ↔ ∀ s, s ∈ ss → (is_safe s x y).1 = true.
Proof.
  rewrite <- not_true_iff_false, danger_loop_true. split.
  - intros Hno s Hs. destruct (is_safe s x y).1 eqn:Hsafe; [done|].
    exfalso. apply Hno. by exists s.
  - intros Hall (s & Hs & Hun). rewrite (Hall s Hs) in Hun. done.
Qed.

Lemma danger_loop_side_effect_free ss x y :
  side_effect_free ss → (danger_loop ss x y).2 = ss.
Proof.
  induction ss as [|s ss IH]; intros Hfree; simpl; [done|].
  assert (s ∈ s :: ss) as Hin by (apply elem_of_cons; by left).
  pose proof (Hfree s x y Hin) as Hs.
  destruct (is_safe s x y) as [safe s']. simpl in Hs. subst s'.
  destruct safe; simpl; [|done].
  assert (side_effect_free ss) as Hrest.
  { intros s0 x0 y0 Hs0. apply Hfree. apply elem_of_cons. by right. }
  specialize (IH Hrest).
  destruct (danger_loop ss x y) as [danger rest']. simpl in *. by subst.
Qed.

Lemma danger_exists_fst rover x y :
  (danger_exists rover x y).1 = (danger_loop (sensors rover) x y).1.
Proof. unfold danger_exists. by destruct (danger_loop _ _ _). Qed.

Lemma danger_exists_snd rover x y :
  (danger_exists rover x y).2 = setSensors rover (danger_loop (sensors rover) x y).2.
Proof. unfold danger_exists. by destruct (danger_loop _ _ _). Qed.

(** ** Single operations *)

Lemma execute_move_unfold rover forward :
  let direction := getDirection (state rover) in
  let new_x :=
    if forward then int_add (getX (state rover)) (fst direction)
    else int_sub (getX (state rover)) (fst direction) in
  let new_y :=
    if forward then int_add (getY (state rover)) (snd direction)
    else int_sub (getY (state rover)) (snd direction) in
  execute_move rover forward =
    mkRover (danger_loop (sensors rover) new_x new_y).2
      (if (danger_loop (sensors rover) new_x new_y).1
       then mkState (getX (state rover)) (getY (state rover)) direction true
       else mkState new_x new_y direction false)
      (operations rover) (landed rover).
Proof.
  intros direction new_x new_y. unfold execute_move, danger_exists.
  fold direction. fold new_x. fold new_y.
  destruct (danger_loop (sensors rover) new_x new_y) as [danger ss'].
  by destruct danger.
Qed.

Lemma execute_move_operations rover forward :
  operations (execute_move rover forward) = operations rover.
Proof. by rewrite execute_move_unfold. Qed.

Lemma execute_move_landed rover forward :
  landed (execute_move rover forward) = landed rover.
Proof. by rewrite execute_move_unfold. Qed.


Lemma execute_move_sensors rover forward :
  let direction := getDirection (state rover) in
  let new_x :=
    if forward then int_add (getX (state rover)) (fst direction)
    else int_sub (getX (state rover)) (fst direction) in
  let new_y :=
    if forward then int_add (getY (state rover)) (snd direction)
    else int_sub (getY (state rover)) (snd direction) in
  sensors (execute_move rover forward) = sensors (danger_exists rover new_x new_y).2.
Proof. intros. rewrite execute_move_unfold, danger_exists_snd. done. Qed.

(** C1. A move computes the candidate cell: the position plus the direction
    vector for [MoveForward], minus it for [MoveBackward] (the candidate is
    taken where the [int] arithmetic of the code does not overflow). When the
    sensors report danger at the candidate, the new state keeps x, y and the
    direction and has [stopped = true]; when they do not, the new state is at
    the candidate, with the same direction and [stopped = false]. *)
Theorem Move_execute_spec rover forward :
  let st := state rover in
  let direction := getDirection st in
  let new_x := if forward then getX st + fst direction else getX st - fst direction in
  let new_y := if forward then getY st + snd direction else getY st - snd direction in
  in_int new_x → in_int new_y →
  let rover' := Operation_execute (if forward then MoveForward else MoveBackward) rover in
  ((danger_exists rover new_x new_y).1 = true →
     getX (state rover') = getX st ∧ getY (state rover') = getY st ∧
     getDirection (state rover') = direction ∧ isStopped (state rover') = true) ∧
  ((danger_exists rover new_x new_y).1 = false →
     getX (state rover') = new_x ∧ getY (state rover') = new_y ∧
     getDirection (state rover') = direction ∧ isStopped (state rover') = false).
Proof.
  intros st direction new_x new_y Hx Hy rover'.
  assert (rover' = execute_move rover forward) as -> by (by destruct forward).
  rewrite execute_move_unfold, danger_exists_fst. fold st. fold direction.
  assert ((if forward then int_add (getX st) (fst direction)
           else int_sub (getX st) (fst direction)) = new_x) as ->.
  { subst new_x. destruct forward; [by apply int_add_exact | by apply int_sub_exact]. }
  assert ((if forward then int_add (getY st) (snd direction)
           else int_sub (getY st) (snd direction)) = new_y) as ->.
  { subst new_y. destruct forward; [by apply int_add_exact | by apply int_sub_exact]. }
  split; intros ->; done.
Qed.

Lemma execute_rotate_unfold rover clockwise :
  execute_rotate rover clockwise =
    mkRover (sensors rover)
      (mkState (getX (state rover)) (getY (state rover))
         (if clockwise
          then (snd (getDirection (state rover)), int_neg (fst (getDirection (state rover))))
          else (int_neg (snd (getDirection (state rover))), fst (getDirection (state rover))))
         false)
      (operations rover) (landed rover).
Proof. reflexivity. Qed.

(** C6, as the code has it. A rotation never calls a sensor (the sensors
    are left exactly as they were, whatever their class), carries x and y
    over and never raises [stopped]: the new state always has
    [stopped = false], so a flag that was raised is cleared. Besides the
    direction that flag is all that can change. *)
Theorem Rotate_execute_frame rover clockwise :
  let rover' := Operation_execute (if clockwise then RotateRight else RotateLeft) rover in
  sensors rover' = sensors rover ∧
  getX (state rover') = getX (state rover) ∧
  getY (state rover') = getY (state rover) ∧
  isStopped (state rover') = false ∧
  operations rover' = operations rover ∧
  landed rover' = landed rover.
Proof. by destruct clockwise. Qed.

(** Four rotations of the same kind restore every direction of the [int]
    range, [INT_MIN] components included. *)
Lemma execute_rotate_four rover clockwise :
  in_int (fst (getDirection (state rover))) →
  in_int (snd (getDirection (state rover))) →
  getDirection (state (Nat.iter 4 (λ r, execute_rotate r clockwise) rover))
  = getDirection (state rover).
Proof.
  intros Hx Hy. destruct (getDirection (state rover)) as [dx dy] eqn:Hd.
  simpl in Hx, Hy.
  destruct clockwise; simpl; rewrite Hd; simpl;
    by rewrite !int_neg_involutive.
Qed.

(** C7. [RotateRight] maps the direction (dx, dy) to (dy, -dx) and
    [RotateLeft] maps it to (-dy, dx), for every direction whose components
    can be negated in [int]; four applications of the same rotation then give
    back the direction the rover started with. *)
Theorem Rotate_direction_spec rover :
  let d := getDirection (state rover) in
  in_int (fst d) → in_int (snd d) → in_int (- fst d) → in_int (- snd d) →
  getDirection (state (Operation_execute RotateRight rover)) = (snd d, - fst d) ∧
  getDirection (state (Operation_execute RotateLeft rover)) = (- snd d, fst d) ∧
  getDirection (state (Nat.iter 4 (Operation_execute RotateRight) rover)) = d ∧
  getDirection (state (Nat.iter 4 (Operation_execute RotateLeft) rover)) = d.
Proof.
  intros d Hx Hy Hnx Hny. repeat split.
  - simpl. fold d. by rewrite int_neg_exact.
  - simpl. fold d. by rewrite int_neg_exact.
  - apply (execute_rotate_four rover true); done.
  - apply (execute_rotate_four rover false); done.
Qed.

(** C8. [danger_exists] answers true exactly when some registered sensor
    answers [is_safe] with false for the cell, so false when no sensor is
    registered; with sensors free of side effects the answer is the same for
    every order of the sensor list, and the call leaves the rover as it
    was. *)
Theorem danger_exists_spec rover x y :
  ((danger_exists rover x y).1 = true ↔
     ∃ s, s ∈ sensors rover ∧ (is_safe s x y).1 = false) ∧
  (sensors rover = [] → (danger_exists rover x y).1 = false) ∧
  (∀ ss, side_effect_free (sensors rover) → ss ≡ₚ sensors rover →
     (danger_exists (setSensors rover ss) x y).1 = (danger_exists rover x y).1 ∧
     (danger_exists (setSensors rover ss) x y).2 = setSensors rover ss ∧
     (danger_exists rover x y).2 = rover).
Proof.
  split; [|split].
  - rewrite danger_exists_fst. apply danger_loop_true.
  - intros Hnil. rewrite danger_exists_fst, Hnil. done.
  - intros ss Hfree Hperm.
    assert (side_effect_free ss) as Hfree'.
    { intros s x0 y0 Hs. apply Hfree. by rewrite <- Hperm. }
    split; [|split].
    + rewrite !danger_exists_fst. simpl.
      apply eq_true_iff_eq. rewrite !danger_loop_true.
      split; intros (s & Hs & Hun); exists s; (split; [|done]).
      * by rewrite <- Hperm.
      * by rewrite Hperm.
    + rewrite danger_exists_snd. simpl.
      by rewrite danger_loop_side_effect_free.
    + rewrite danger_exists_snd, danger_loop_side_effect_free by done.
      by destruct rover.
Qed.

(** C9. [land] sets the landed flag and installs a fresh state at the given
    coordinates, with the given direction and [stopped = false], whatever the
    rover held before; landing again overrides an earlier landing. *)
Theorem land_spec rover (coordinates : Z * Z) (direction : direction_t) :
  let rover' := land coordinates direction rover in
  landed rover' = true ∧
  getX (state rover') = fst coordinates ∧
  getY (state rover') = snd coordinates ∧
  getDirection (state rover') = direction ∧
  isStopped (state rover') = false ∧
  sensors rover' = sensors rover ∧
  operations rover' = operations rover ∧
  (∀ coordinates0 direction0,
     land coordinates direction (land coordinates0 direction0 rover) = rover').
Proof. done. Qed.

(** C10. A [Compose] without children is the identity: executing it leaves
    the rover, and so its position, direction and stopped flag, as it was,
    stopped or not. *)
Theorem Compose_nil_identity rover :
  Operation_execute (Compose []) rover = rover.
Proof. reflexivity. Qed.

(** ** Composite operations *)

(** Induction over operations that reaches the children of a [Compose]. *)
Lemma Operation_nested_ind (P : Operation → Prop) :
  P MoveForward → P MoveBackward → P RotateLeft → P RotateRight →
  (∀ ops, Forall P ops → P (Compose ops)) →
  ∀ op, P op.
Proof.
  intros Hmf Hmb Hrl Hrr Hc. fix IH 1.
  intros [ | | | | ops]; try assumption.
  apply Hc. induction ops as [|o ops IHops]; constructor; [apply IH | exact IHops].
Qed.

Lemma Compose_execute_cons (o : Operation) (rest : list Operation) rover :
  Operation_execute (Compose (o :: rest)) rover =
    if isStopped (state rover) then rover
    else Operation_execute (Compose rest) (Operation_execute o rover).
Proof. reflexivity. Qed.

Lemma Compose_execute_stopped (ops : list Operation) rover :
  isStopped (state rover) = true → Operation_execute (Compose ops) rover = rover.
Proof.
  intros Hstop. destruct ops as [|o rest]; [done|].
  by rewrite Compose_execute_cons, Hstop.
Qed.

(** No operation touches the command registry or the landed flag. *)
Lemma Operation_execute_registry op :
  ∀ rover, operations (Operation_execute op rover) = operations rover ∧
           landed (Operation_execute op rover) = landed rover.
Proof.
  induction op as [ | | | | ops IH] using Operation_nested_ind; intros rover;
    try (simpl; by rewrite ?execute_move_operations, ?execute_move_landed).
  revert rover. induction IH as [|o rest Ho _ IHrest]; intros rover; [done|].
  rewrite Compose_execute_cons. destruct (isStopped (state rover)); [done|].
  destruct (IHrest (Operation_execute o rover)) as [-> ->]. apply Ho.
Qed.

(** C2. Executing a [Compose] applies a prefix of its children, in their
    order, and nothing else: every child that is applied finds
    [stopped = false] when its turn comes, the first child that is not
    applied finds [stopped = true], and a rover that is stopped when the
    [Compose] begins is left as it is, no child being applied. *)
Theorem Compose_execute_spec (ops : list Operation) rover :
  (isStopped (state rover) = true → Operation_execute (Compose ops) rover = rover) ∧
  ∃ n : nat,
    (n ≤ length ops)%nat ∧
    Operation_execute (Compose ops) rover = apply_all (take n ops) rover ∧
    (∀ i : nat, (i < n)%nat →
       isStopped (state (apply_all (take i ops) rover)) = false) ∧
    ((n < length ops)%nat →
       isStopped (state (apply_all (take n ops) rover)) = true).
Proof.
  split; [apply Compose_execute_stopped|].
  revert rover. induction ops as [|o rest IH]; intros rover.
  - exists 0%nat. simpl. repeat split; [lia | intros; lia | lia].
  - rewrite Compose_execute_cons.
    destruct (isStopped (state rover)) eqn:Hstop.
    + exists 0%nat. simpl. repeat split; [lia | intros; lia | done].
    + destruct (IH (Operation_execute o rover)) as (n & Hle & Heq & Hrun & Hend).
      exists (S n). simpl. repeat split.
      * lia.
      * exact Heq.
      * intros [|i] Hi; [exact Hstop|]. simpl. apply Hrun. lia.
      * intros Hlt. apply Hend. lia.
Qed.

(** ** The dispatch loop *)

Lemma execute_loop_registry (commands : string) :
  ∀ rover, operations (execute_loop commands rover) = operations rover ∧
           landed (execute_loop commands rover) = landed rover.
Proof.
  induction commands as [|key rest IH]; intros rover; simpl; [done|].
  destruct (operations rover !! key) as [op|]; [|done].
  destruct (IH (Operation_execute op rover)) as [-> ->].
  apply Operation_execute_registry.
Qed.

Lemma execute_loop_app (pre rest : string) :
  ∀ rover, all_registered (operations rover) pre = true →
    execute_loop (pre +:+ rest) rover = execute_loop rest (execute_loop pre rover).
Proof.
  induction pre as [|key pre IH]; intros rover Hreg; simpl in *; [done|].
  destruct (operations rover !! key) as [op|]; [|done].
  apply IH. by rewrite (proj1 (Operation_execute_registry op rover)).
Qed.

Lemma execute_landed (commands : string) rover :
  landed rover = true →
  execute commands rover =
    (Returned, execute_loop commands (setState rover (setStopped (state rover) false))).
Proof. intros Hl. unfold execute. by rewrite Hl. Qed.

(** C4. On a landed rover, when the loop meets a token that has no
    operation bound, it raises the stopped flag on the state the tokens
    before it have produced and processes none of the tokens after it. In
    particular, with F bound to [MoveForward], X not bound and no danger at
    the cell ahead, executing FXF ends exactly one step ahead of the start. *)
Theorem execute_unknown_token :
  (∀ rover (pre rest : string) (key : ascii),
     landed rover = true →
     all_registered (operations rover) pre = true →
     operations rover !! key = None →
     let before := (execute pre rover).2 in
     execute (pre +:+ String key rest) rover =
       (Returned, setState before (setStopped (state before) true))) ∧
  (∀ rover (F X : ascii),
     landed rover = true →
     operations rover !! F = Some MoveForward →
     operations rover !! X = None →
     let st := state rover in
     let new_x := getX st + fst (getDirection st) in
     let new_y := getY st + snd (getDirection st) in
     in_int new_x → in_int new_y →
     (danger_exists rover new_x new_y).1 = false →
     state (execute (String F (String X (String F EmptyString))) rover).2 =
       mkState new_x new_y (getDirection st) true).
Proof.
  split.
  - intros rover pre rest key Hl Hreg Hkey before. subst before.
    rewrite !execute_landed by done. simpl.
    set (rover0 := setState rover (setStopped (state rover) false)).
    rewrite execute_loop_app by done. simpl.
    rewrite (proj1 (execute_loop_registry pre rover0)). simpl.
    by rewrite Hkey.
  - intros rover F X Hl HF HX st new_x new_y Hx Hy Hsafe.
    rewrite execute_landed by done. cbn [snd execute_loop].
    set (rover0 := setState rover (setStopped (state rover) false)).
    change (operations rover0) with (operations rover). rewrite HF.
    cbn [Operation_execute]. rewrite execute_move_operations.
    change (operations rover0) with (operations rover). rewrite HX.
    rewrite execute_move_unfold. cbn [state setState setStopped].
    change (getDirection (state rover0)) with (getDirection st).
    change (getX (state rover0)) with (getX st).
    change (getY (state rover0)) with (getY st).
    change (sensors rover0) with (sensors rover).
    rewrite !int_add_exact by done. fold new_x. fold new_y.
    rewrite danger_exists_fst in Hsafe. rewrite Hsafe. done.
Qed.

(** C5, as the code has it. On a landed rover the loop never looks at the
    stopped flag: a registered token that no unregistered token precedes has
    its operation invoked on the state the tokens before it have produced,
    stopped or not, and the loop goes on with the tokens after it. A move
    or a rotation so invoked runs as always; a [Compose] invoked on a
    stopped state returns at once. *)
Theorem execute_no_stop_check rover (pre rest : string) (key : ascii) op :
  landed rover = true →
  all_registered (operations rover) pre = true →
  operations rover !! key = Some op →
  let before := (execute pre rover).2 in
  (execute (pre +:+ String key rest) rover).2 =
    execute_loop rest (Operation_execute op before) ∧
  (∀ ops, op = Compose ops → isStopped (state before) = true →
     Operation_execute op before = before).
Proof.
  intros Hl Hreg Hkey before. subst before.
  rewrite !execute_landed by done. simpl.
  set (rover0 := setState rover (setStopped (state rover) false)).
  split.
  - rewrite execute_loop_app by done. simpl.
    rewrite (proj1 (execute_loop_registry pre rover0)). simpl.
    by rewrite Hkey.
  - intros ops -> Hstop. by apply Compose_execute_stopped.
Qed.

(** ** Landing and the [RoverNotLanded] exception *)

Lemma execute_registry (commands : string) rover :
  operations (execute commands rover).2 = operations rover ∧
  landed (execute commands rover).2 = landed rover.
Proof.
  unfold execute. destruct (landed rover) eqn:Hl; simpl; [|done].
  destruct (execute_loop_registry commands
              (setState rover (setStopped (state rover) false))) as [-> ->].
  done.
Qed.

Lemma run_calls_landed (history : list call) :
  ∀ rover, landed (run_calls history rover) = landed rover || existsb is_land history.
Proof.
  unfold run_calls.
  induction history as [|c history IH]; intros rover; simpl.
  - by rewrite orb_false_r.
  - rewrite IH. destruct c as [coordinates direction | commands]; simpl.
    + by rewrite orb_true_r.
    + by rewrite (proj2 (execute_registry commands rover)).
Qed.

(** C3. For a rover built by the constructor and then used through any
    sequence of [land] and [execute] calls, the next [execute] throws
    [RoverNotLanded] exactly when no [land] is among the earlier calls. When
    it throws, the rover is left as it was (state and sensors: no token was
    processed); when [land] has been called it returns, whatever the stopped
    flag is. *)
Theorem execute_NotLanded_iff (operationsMap : gmap ascii Operation) (sensorVec : list T)
    (history : list call) (commands : string) :
  let rover := run_calls history (Rover_new operationsMap sensorVec) in
  ((execute commands rover).1 = Thrown RoverNotLanded ↔ existsb is_land history = false) ∧
  ((execute commands rover).1 = Thrown RoverNotLanded → (execute commands rover).2 = rover) ∧
  (existsb is_land history = true → (execute commands rover).1 = Returned).
Proof.
  intros rover.
  assert (landed rover = existsb is_land history) as Hl.
  { subst rover. by rewrite run_calls_landed. }
  unfold execute. rewrite Hl.
  destruct (existsb is_land history); simpl; repeat split; done.
Qed.

End rover_facts.

(** * Examples

    The scenarios of the specification, run on the model. *)

Example execute_ffrff :
  state (execute "ffrff" free_rover).2 = mkState 2 2 Direction.EAST false.
Proof. vm_compute. reflexivity. Qed.

Example execute_ff_vetoed :
  state (execute "f" example_rover).2 = mkState 0 1 Direction.NORTH false ∧
  state (execute "ff" example_rover).2 = mkState 0 1 Direction.NORTH true.
Proof. vm_compute. split; reflexivity. Qed.

Example execute_forward_backward :
  state (execute "fb" free_rover).2 = state free_rover.
Proof. vm_compute. reflexivity. Qed.

Example compose_short_circuit :
  let rover := (execute "f" example_rover).2 in
  state (Operation_execute (Compose [MoveForward; RotateRight; MoveForward]) rover)
  = mkState 0 1 Direction.NORTH true.
Proof. vm_compute. reflexivity. Qed.

(** The sensor of the example counts its calls: a move asks it, a rotation
    does not. *)
Example sensor_calls :
  queries <$> sensors (Operation_execute MoveForward example_rover) = [1%nat] ∧
  queries <$> sensors (Operation_execute RotateLeft example_rover) = [0%nat].
Proof. vm_compute. split; reflexivity. Qed.

Example execute_before_land :
  (execute "f" (build example_builder)).1 = Thrown RoverNotLanded.
Proof. reflexivity. Qed.

(** * The theorems at concrete rovers *)

(** From (0, 0) facing north the cell ahead is free: the move goes there. *)
Lemma Move_execute_spec_witness :
  in_int (0 + 0) ∧ in_int (0 + 1) ∧
  getX (state (Operation_execute MoveForward example_rover)) = 0 ∧
  getY (state (Operation_execute MoveForward example_rover)) = 1 ∧
  getDirection (state (Operation_execute MoveForward example_rover)) = Direction.NORTH ∧
  isStopped (state (Operation_execute MoveForward example_rover)) = false.
Proof.
  assert (in_int (0 + 0)) as H0 by solve_in_int.
  assert (in_int (0 + 1)) as H1 by solve_in_int.
  split; [exact H0|]. split; [exact H1|].
  exact (proj2 (Move_execute_spec example_rover true H0 H1) eq_refl).
Defined.

(** Facing north, a right turn faces east, a left turn faces west. *)
Lemma Rotate_direction_spec_witness :
  getDirection (state (Operation_execute RotateRight example_rover)) = Direction.EAST ∧
  getDirection (state (Operation_execute RotateLeft example_rover)) = Direction.WEST ∧
  getDirection (state (Nat.iter 4 (Operation_execute RotateRight) example_rover))
    = Direction.NORTH ∧
  getDirection (state (Nat.iter 4 (Operation_execute RotateLeft) example_rover))
    = Direction.NORTH.
Proof.
  apply (Rotate_direction_spec example_rover); solve_in_int.
Defined.

(** The sensor of the example rover rejects (0, 2) and accepts (0, 1). *)
Lemma danger_exists_spec_witness :
  (danger_exists example_rover 0 2).1 = true ∧
  (danger_exists free_rover 0 2).1 = false.
Proof.
  split.
  - apply (proj1 (danger_exists_spec example_rover 0 2)).
    exists (mkHazardSensor [(0, 2)] 0). split; [|reflexivity].
    apply elem_of_cons. by left.
  - apply (proj1 (proj2 (danger_exists_spec free_rover 0 2))). reflexivity.
Defined.

(** The composite of the example, started one cell below the hazard: the
    first child is vetoed and is the only one applied. *)
Lemma Compose_execute_spec_witness :
  let ops := [MoveForward; RotateRight; MoveForward] in
  let rover := (execute "f" example_rover).2 in
  let stopped := Operation_execute MoveForward rover in
  isStopped (state stopped) = true ∧
  Operation_execute (Compose ops) stopped = stopped ∧
  ∃ n : nat,
    (n ≤ 3)%nat ∧
    Operation_execute (Compose ops) rover = apply_all (take n ops) rover ∧
    (∀ i : nat, (i < n)%nat →
       isStopped (state (apply_all (take i ops) rover)) = false) ∧
    ((n < 3)%nat → isStopped (state (apply_all (take n ops) rover)) = true).
Proof.
  intros ops rover stopped. split; [reflexivity|]. split.
  - apply (proj1 (Compose_execute_spec ops stopped)). reflexivity.
  - exact (proj2 (Compose_execute_spec ops rover)).
Defined.

(** A rover that has only executed throws; after a landing it returns. *)
Lemma execute_NotLanded_iff_witness :
  (execute "f" (run_calls [call_execute "ff"] (build example_builder))).1
    = Thrown RoverNotLanded ∧
  (execute "f" (run_calls [call_land (0, 0) Direction.NORTH; call_execute "ff"]
                  (build example_builder))).1 = Returned.
Proof.
  split.
  - apply (proj1 (execute_NotLanded_iff (builder_operations example_builder)
                    (builder_sensors example_builder) [call_execute "ff"] "f")).
    reflexivity.
  - apply (proj2 (proj2 (execute_NotLanded_iff (builder_operations example_builder)
                           (builder_sensors example_builder)
                           [call_land (0, 0) Direction.NORTH; call_execute "ff"] "f"))).
    reflexivity.
Defined.

(** fXf on the rover without sensors: one step north, then the halt. *)
Lemma execute_unknown_token_witness :
  execute "fXf" free_rover =
    (Returned, setState (execute "f" free_rover).2
                 (setStopped (state (execute "f" free_rover).2) true)) ∧
  state (execute "fXf" free_rover).2 = mkState 0 1 Direction.NORTH true.
Proof.
  split.
  - apply (proj1 execute_unknown_token free_rover "f" "f" "X"%char); reflexivity.
  - apply (proj2 execute_unknown_token free_rover "f"%char "X"%char);
      try reflexivity; solve_in_int.
Defined.

(** ffr on the example rover: the second f is vetoed and leaves the rover
    stopped, the rotation bound to r is invoked all the same. *)
Lemma execute_no_stop_check_witness :
  isStopped (state (execute "ff" example_rover).2) = true ∧
  (execute "ffr" example_rover).2
    = Operation_execute RotateRight (execute "ff" example_rover).2.
Proof.
  split; [reflexivity|].
  apply (proj1 (execute_no_stop_check example_rover "ff" "" "r"%char RotateRight
                  eq_refl eq_refl eq_refl)).
Defined.

(** C5, as stated, fails. In ffXb the second f is vetoed and leaves the
    rover stopped; b is registered and comes later in the same call, but
    the loop has ended at X: the call leaves the rover as ffX does, and not
    as an invocation of [MoveBackward] would. *)
Lemma execute_no_stop_check_counterexample :
  landed example_rover = true ∧
  isStopped (state (execute "ff" example_rover).2) = true ∧
  operations example_rover !! "b"%char = Some MoveBackward ∧
  (execute "ffXb" example_rover).2 = (execute "ffX" example_rover).2 ∧
  (execute "ffXb" example_rover).2
    ≠ Operation_execute MoveBackward (execute "ffX" example_rover).2.
Proof.
  split; [reflexivity|]. split; [reflexivity|]. split; [reflexivity|].
  split; [reflexivity|].
  intros Heq. apply (f_equal (λ r, getY (state r))) in Heq.
  vm_compute in Heq. discriminate Heq.
Qed.

(** C6, as stated, fails. After ff the example rover is stopped by the
    veto; a rotation then changes the stopped flag, not the direction alone. *)
Lemma Rotate_execute_frame_counterexample :
  let rover := (execute "ff" example_rover).2 in
  isStopped (state rover) = true ∧
  isStopped (state (Operation_execute RotateLeft rover)) ≠ isStopped (state rover) ∧
  isStopped (state (Operation_execute RotateRight rover)) ≠ isStopped (state rover).
Proof.
  intros rover. split; [reflexivity|]. split; vm_compute; discriminate.
Qed.

(** * Further properties of the engine *)

(** ** Names and text *)

Lemma canonical_cases (d : direction_t) :
  canonical d ↔
    d = Direction.NORTH ∨ d = Direction.EAST ∨ d = Direction.SOUTH ∨ d = Direction.WEST.
Proof. unfold canonical. rewrite !elem_of_cons, elem_of_nil. tauto. Qed.

Lemma getName_cases (d : direction_t) :
  (d = Direction.NORTH ∧ getName d = "NORTH") ∨
  (d = Direction.EAST ∧ getName d = "EAST") ∨
  (d = Direction.SOUTH ∧ getName d = "SOUTH") ∨
  (d = Direction.WEST ∧ getName d = "WEST") ∨
  (¬ canonical d ∧ getName d = "unknown").
Proof.
  rewrite canonical_cases. unfold getName.
  destruct (decide (d = Direction.NORTH)) as [->|Hn]; [by left|].
  rewrite (bool_decide_eq_false_2 _ Hn).
  destruct (decide (d = Direction.EAST)) as [->|He]; [right; by left|].
  rewrite (bool_decide_eq_false_2 _ He).
  destruct (decide (d = Direction.SOUTH)) as [->|Hs]; [do 2 right; by left|].
  rewrite (bool_decide_eq_false_2 _ Hs).
  destruct (decide (d = Direction.WEST)) as [->|Hw]; [do 3 right; by left|].
  rewrite (bool_decide_eq_false_2 _ Hw).
  do 4 right. split; [tauto | done].
Qed.

Lemma getName_unknown (d : direction_t) : getName d = "unknown" ↔ ¬ canonical d.
Proof.
  rewrite canonical_cases.
  destruct (getName_cases d) as [[-> ->]|[[-> ->]|[[-> ->]|[[-> ->]|[Hno ->]]]]];
    try (split; [discriminate | tauto]).
  rewrite canonical_cases in Hno. tauto.
Qed.

(** X1. [getName] answers unknown exactly for the directions that are none of
    the four of [Direction], and tells the four apart. *)
Theorem getName_spec (d : direction_t) :
  (getName d = "unknown" ↔ ¬ canonical d) ∧
  (∀ d', canonical d → getName d = getName d' → d = d').
Proof.
  split; [apply getName_unknown|].
  - intros d' Hd.
    destruct (getName_cases d) as [[-> ->]|[[-> ->]|[[-> ->]|[[-> ->]|[Hno ->]]]]];
      [..|tauto];
      destruct (getName_cases d') as [[-> ->]|[[-> ->]|[[-> ->]|[[-> ->]|[_ ->]]]]];
      intros Heq; try discriminate Heq; reflexivity.
Qed.

Lemma string_app_assoc (a b c : string) : (a +:+ b) +:+ c = a +:+ (b +:+ c).
Proof.
  induction a as [|x a IH]; [reflexivity|].
  change (String x ((a +:+ b) +:+ c) = String x (a +:+ (b +:+ c))).
  by rewrite IH.
Qed.

(** Two texts that agree after a separator which occurs in neither head
    have the same head and the same rest. *)
Lemma string_app_separator (c : ascii) (s1 s2 r1 r2 : string) :
  c ∉ list_ascii_of_string s1 → c ∉ list_ascii_of_string s2 →
  s1 +:+ String c r1 = s2 +:+ String c r2 → s1 = s2 ∧ r1 = r2.
Proof.
  revert s2. induction s1 as [|a s1 IH]; intros [|b s2] H1 H2 Heq.
  - change (String c r1 = String c r2) in Heq. by simplify_eq.
  - change (String c r1 = String b (s2 +:+ String c r2)) in Heq.
    simplify_eq. destruct H2. simpl. apply elem_of_cons. by left.
  - change (String a (s1 +:+ String c r1) = String c r2) in Heq.
    simplify_eq. destruct H1. simpl. apply elem_of_cons. by left.
  - change (String a (s1 +:+ String c r1) = String b (s2 +:+ String c r2)) in Heq.
    injection Heq as -> Heq.
    destruct (IH s2) as [-> ->]; [| |exact Heq|done].
    + intros Hin. apply H1. simpl. apply elem_of_cons. by right.
    + intros Hin. apply H2. simpl. apply elem_of_cons. by right.
Qed.

Lemma pretty_N_char_numeral (x : N) : pretty_N_char x ∈ numerals.
Proof.
  unfold pretty_N_char, numerals.
  repeat case_match; rewrite !elem_of_cons; tauto.
Qed.

Lemma pretty_N_go_numerals (x : N) :
  ∀ s c, c ∈ list_ascii_of_string (pretty_N_go x s) →
         c ∈ numerals ∨ c ∈ list_ascii_of_string s.
Proof.
  induction (N.lt_wf_0 x) as [x _ IH]; intros s c Hc.
  assert (x = 0 ∨ 0 < x)%N as [->|Hpos] by lia.
  - rewrite pretty_N_go_0 in Hc. by right.
  - rewrite pretty_N_go_step in Hc by done.
    apply IH in Hc; [|by apply N.div_lt].
    destruct Hc as [Hc|Hc]; [by left|].
    simpl in Hc. apply elem_of_cons in Hc as [->|Hc]; [|by right].
    left. apply pretty_N_char_numeral.
Qed.

Lemma pretty_N_numerals (x : N) (c : ascii) :
  c ∈ list_ascii_of_string (pretty x) → c ∈ numerals.
Proof.
  unfold pretty, pretty_N. case_decide.
  - simpl. rewrite list_elem_of_singleton. intros ->.
    unfold numerals. apply elem_of_cons. by left.
  - intros Hc. apply pretty_N_go_numerals in Hc as [Hc|Hc]; [done|].
    simpl in Hc. by apply elem_of_nil in Hc.
Qed.

(** A number is written with digits and the minus sign only. *)
Lemma pretty_Z_numerals (z : Z) (c : ascii) :
  c ∈ list_ascii_of_string (pretty z) → c ∈ numerals.
Proof.
  destruct z as [|q|q]; unfold pretty, pretty_Z.
  - simpl. rewrite list_elem_of_singleton. intros ->.
    unfold numerals. apply elem_of_cons. by left.
  - apply pretty_N_numerals.
  - change ("-" +:+ pretty q) with (String "-" (pretty q)). simpl.
    intros [->|Hc]%elem_of_cons.
    + unfold numerals. rewrite !elem_of_cons. tauto.
    + by apply (pretty_N_numerals (N.pos q)).
Qed.

Section text_facts.
Context {T : Type} `{!Sensor T}.
Implicit Types (r rover : Rover T) (output : string).

Lemma print_canonical output r :
  canonical (getDirection (state r)) →
  print output r =
    output +:+
      String "(" (pretty (getX (state r)) +:+
        String "," (String " " (pretty (getY (state r)) +:+
          String ")" (String " " (getName (getDirection (state r)) +:+
            (if isStopped (state r) then " stopped" else ""))))))%char.
Proof.
  intros Hd. unfold print.
  assert (getName (getDirection (state r)) ≠ "unknown") as Hname.
  { intros Hn. by apply getName_unknown in Hn. }
  rewrite (bool_decide_eq_false_2 _ Hname).
  destruct (isStopped (state r)); rewrite !string_app_assoc; [done|].
  assert (∀ s, s +:+ "" = s) as Hnil.
  { induction s as [|a s IH]; [done|]. change (String a (s +:+ "") = String a s).
    by rewrite IH. }
  by rewrite Hnil.
Qed.

Lemma print_unknown output r :
  ¬ canonical (getDirection (state r)) → print output r = output +:+ "unknown".
Proof.
  intros Hd. unfold print.
  apply getName_unknown in Hd. rewrite Hd. done.
Qed.

Lemma print_canonical_not_unknown output r :
  canonical (getDirection (state r)) → print output r ≠ output +:+ "unknown".
Proof.
  intros Hd Heq. rewrite print_canonical in Heq by done.
  apply (inj (String.app output)) in Heq. discriminate Heq.
Qed.

(** X2. The text of a rover is the bare word unknown, without position and
    without the stopped mark, exactly when its direction is none of the
    four. *)
Theorem print_unknown_iff output r :
  print output r = output +:+ "unknown" ↔ ¬ canonical (getDirection (state r)).
Proof.
  split; [|apply print_unknown].
  intros Heq Hd. by apply (print_canonical_not_unknown output r).
Qed.

Lemma comma_not_numeral : ("," : ascii) ∉ numerals.
Proof.
  unfold numerals. intros H.
  repeat (apply elem_of_cons in H as [H|H]; [discriminate H|]).
  by apply elem_of_nil in H.
Qed.

Lemma paren_not_numeral : (")" : ascii) ∉ numerals.
Proof.
  unfold numerals. intros H.
  repeat (apply elem_of_cons in H as [H|H]; [discriminate H|]).
  by apply elem_of_nil in H.
Qed.

Lemma separator_not_numeral (c : ascii) (z : Z) :
  c ∉ numerals → c ∉ list_ascii_of_string (pretty z).
Proof. intros Hc Hin. by apply Hc, (pretty_Z_numerals z). Qed.

(** X3. The text of a rover with one of the four directions tells its whole
    state: two rovers written alike on the same stream have the same
    position, direction and stopped flag. *)
Theorem print_injective output r1 r2 :
  canonical (getDirection (state r1)) →
  print output r1 = print output r2 →
  state r1 = state r2.
Proof.
  intros Hd1 Heq.
  destruct (decide (canonical (getDirection (state r2)))) as [Hd2|Hd2]; last first.
  { rewrite (print_unknown _ _ Hd2) in Heq.
    by apply print_canonical_not_unknown in Heq. }
  rewrite !print_canonical in Heq by done.
  apply (inj (String.app output)) in Heq. injection Heq as Heq.
  apply string_app_separator in Heq;
    [|apply separator_not_numeral; exact comma_not_numeral..].
  destruct Heq as [Hx Heq].
  injection Heq as Heq.
  apply string_app_separator in Heq;
    [|apply separator_not_numeral; exact paren_not_numeral..].
  destruct Heq as [Hy Heq].
  injection Heq as Heq.
  apply (inj pretty) in Hx. apply (inj pretty) in Hy.
  destruct (state r1) as [x1 y1 d1 s1], (state r2) as [x2 y2 d2 s2].
  simpl in *. subst x2 y2.
  assert (d1 = d2 ∧ s1 = s2) as [-> ->]; [|done].
  apply canonical_cases in Hd1, Hd2.
  destruct Hd1 as [-> | [-> | [-> | ->]]], Hd2 as [-> | [-> | [-> | ->]]], s1, s2;
    vm_compute in Heq; first [discriminate Heq | done].
Qed.

End text_facts.

Section engine_facts.
Context {T : Type} `{!Sensor T}.
Implicit Types (rover : Rover T) (ss : list T) (op : Operation).
Implicit Types (forward clockwise : bool) (x y : coordinate_t).

(** ** Rotations on the compass *)

(** X4. [RotateRight] turns NORTH to EAST to SOUTH to WEST and back to NORTH;
    [RotateLeft] goes the other way round. *)
Theorem Rotate_compass rover :
  let d := getDirection (state rover) in
  let right := getDirection (state (Operation_execute RotateRight rover)) in
  let left := getDirection (state (Operation_execute RotateLeft rover)) in
  (d = Direction.NORTH → right = Direction.EAST ∧ left = Direction.WEST) ∧
  (d = Direction.EAST → right = Direction.SOUTH ∧ left = Direction.NORTH) ∧
  (d = Direction.SOUTH → right = Direction.WEST ∧ left = Direction.EAST) ∧
  (d = Direction.WEST → right = Direction.NORTH ∧ left = Direction.SOUTH).
Proof.
  simpl. destruct (getDirection (state rover)) as [dx dy].
  split_and!; intros [= -> ->]; split; reflexivity.
Qed.

Lemma execute_rotate_canonical rover clockwise :
  canonical (getDirection (state rover)) →
  canonical (getDirection (state (execute_rotate rover clockwise))).
Proof.
  rewrite !canonical_cases. simpl.
  intros [-> | [-> | [-> | ->]]]; destruct clockwise; vm_compute; tauto.
Qed.

Lemma execute_move_direction rover forward :
  getDirection (state (execute_move rover forward)) = getDirection (state rover).
Proof.
  rewrite execute_move_unfold. simpl.
  by destruct (danger_loop _ _ _).1.
Qed.

Lemma Operation_execute_canonical op :
  ∀ rover, canonical (getDirection (state rover)) →
           canonical (getDirection (state (Operation_execute op rover))).
Proof.
  induction op as [ | | | | ops IH] using Operation_nested_ind; intros rover Hd;
    try (simpl; by rewrite ?execute_move_direction);
    try (by apply execute_rotate_canonical).
  revert rover Hd. induction IH as [|o rest Ho _ IHrest]; intros rover Hd; [done|].
  rewrite Compose_execute_cons. destruct (isStopped (state rover)); [done|].
  by apply IHrest, Ho.
Qed.

Lemma execute_loop_canonical (commands : string) :
  ∀ rover, canonical (getDirection (state rover)) →
           canonical (getDirection (state (execute_loop commands rover))).
Proof.
  induction commands as [|key rest IH]; intros rover Hd; simpl; [done|].
  destruct (operations rover !! key) as [op|]; [|done].
  by apply IH, Operation_execute_canonical.
Qed.

(** X5. A rover whose direction is one of the four keeps such a direction
    through every [execute], whatever the commands and the operations bound
    to them. *)
Theorem execute_canonical (commands : string) rover :
  canonical (getDirection (state rover)) →
  canonical (getDirection (state (execute commands rover).2)).
Proof.
  intros Hd. unfold execute. destruct (landed rover); simpl; [|done].
  by apply execute_loop_canonical.
Qed.

(** ** Operations that undo each other *)

(** X6. A left turn and a right turn undo each other, in either order: the
    rover is back with its position and direction, the stopped flag
    lowered, for every direction whose components can be negated in [int]. *)
Theorem Rotate_inverse rover :
  let d := getDirection (state rover) in
  in_int (fst d) → in_int (snd d) → in_int (- fst d) → in_int (- snd d) →
  Operation_execute RotateRight (Operation_execute RotateLeft rover)
    = setState rover (setStopped (state rover) false) ∧
  Operation_execute RotateLeft (Operation_execute RotateRight rover)
    = setState rover (setStopped (state rover) false).
Proof.
  intros d Hx Hy _ _. subst d. simpl.
  rewrite !execute_rotate_unfold. simpl.
  rewrite !int_neg_involutive by done.
  unfold setState, setStopped. by destruct (getDirection (state rover)).
Qed.

(** X7. A move that succeeds is undone by the opposite move, when the sensors
    then let the rover back: position and direction are those before the
    two moves. The coordinates involved are representable in [int]. *)
Theorem Move_round_trip rover forward :
  let st := state rover in
  let d := getDirection st in
  let new_x := if forward then getX st + fst d else getX st - fst d in
  let new_y := if forward then getY st + snd d else getY st - snd d in
  let moved := Operation_execute (if forward then MoveForward else MoveBackward) rover in
  in_int (getX st) → in_int (getY st) → in_int new_x → in_int new_y →
  (danger_exists rover new_x new_y).1 = false →
  (danger_exists moved (getX st) (getY st)).1 = false →
  state (Operation_execute (if forward then MoveBackward else MoveForward) moved)
    = mkState (getX st) (getY st) d false.
Proof.
  intros st d new_x new_y moved Hx Hy Hnx Hny Hsafe Hback.
  assert (moved = execute_move rover forward) as Hmoved by (by destruct forward).
  assert (state moved = mkState new_x new_y d false) as Hst.
  { rewrite Hmoved, execute_move_unfold. simpl. fold st. fold d.
    rewrite danger_exists_fst in Hsafe.
    destruct forward; subst new_x new_y;
      rewrite ?int_add_exact, ?int_sub_exact by done; by rewrite Hsafe. }
  assert (Operation_execute (if forward then MoveBackward else MoveForward) moved
          = execute_move moved (negb forward)) as -> by (by destruct forward).
  rewrite execute_move_unfold, Hst. simpl.
  rewrite danger_exists_fst in Hback.
  assert ((if negb forward then int_add new_x (fst d) else int_sub new_x (fst d))
          = getX st) as ->.
  { destruct forward; subst new_x; simpl.
    - rewrite int_sub_exact; [lia|]. by replace (getX st + fst d - fst d) with (getX st) by lia.
    - rewrite int_add_exact; [lia|]. by replace (getX st - fst d + fst d) with (getX st) by lia. }
  assert ((if negb forward then int_add new_y (snd d) else int_sub new_y (snd d))
          = getY st) as ->.
  { destruct forward; subst new_y; simpl.
    - rewrite int_sub_exact; [lia|]. by replace (getY st + snd d - snd d) with (getY st) by lia.
    - rewrite int_add_exact; [lia|]. by replace (getY st - snd d + snd d) with (getY st) by lia. }
  by rewrite Hback.
Qed.

(** ** Composites of composites *)

Lemma Compose_execute_app (xs ys : list Operation) rover :
  Operation_execute (Compose (xs ++ ys)) rover
    = Operation_execute (Compose ys) (Operation_execute (Compose xs) rover).
Proof.
  revert rover. induction xs as [|o xs IH]; intros rover; [done|].
  change ((o :: xs) ++ ys) with (o :: (xs ++ ys)).
  rewrite !Compose_execute_cons.
  destruct (isStopped (state rover)) eqn:Hstop.
  - by rewrite Compose_execute_stopped.
  - apply IH.
Qed.

(** X8. A composite of two lists in a row does what the composite of the first
    and then the composite of the second do; so, by the children one at a
    time, a composite is the chain of the composites of its single
    children. *)
Theorem Compose_app (xs ys : list Operation) rover :
  Operation_execute (Compose (xs ++ ys)) rover
    = Operation_execute (Compose ys) (Operation_execute (Compose xs) rover) ∧
  Operation_execute (Compose xs) rover
    = apply_all ((λ o, Compose [o]) <$> xs) rover.
Proof.
  split; [apply Compose_execute_app|].
  revert rover. induction xs as [|o xs IH]; intros rover; [done|].
  change (o :: xs) with ([o] ++ xs) at 1. rewrite Compose_execute_app.
  apply IH.
Qed.

(** X9. Nesting adds nothing: a composite of composites does what the one
    composite of all their children does; and on a rover that is not
    stopped a composite of a single operation does what the operation
    does. *)
Theorem Compose_flatten (xss : list (list Operation)) rover :
  Operation_execute (Compose (Compose <$> xss)) rover
    = Operation_execute (Compose (concat xss)) rover ∧
  (∀ op, isStopped (state rover) = false →
         Operation_execute (Compose [op]) rover = Operation_execute op rover).
Proof.
  split.
  - revert rover. induction xss as [|xs xss IH]; intros rover; [done|].
    change (Compose <$> xs :: xss) with (Compose xs :: (Compose <$> xss)).
    change (concat (xs :: xss)) with (xs ++ concat xss).
    rewrite Compose_execute_cons, Compose_execute_app.
    destruct (isStopped (state rover)) eqn:Hstop.
    + rewrite (Compose_execute_stopped xs rover Hstop).
      by rewrite Compose_execute_stopped.
    + apply IH.
  - intros op Hstop. rewrite Compose_execute_cons, Hstop. done.
Qed.

(** ** Command strings in one call or in two *)

(** X10. A command string cut in two and executed in two calls gives what the
    one call gives, when the first part has only registered tokens and does
    not leave the rover stopped. *)
Theorem execute_split (a b : string) rover :
  landed rover = true →
  all_registered (operations rover) a = true →
  isStopped (state (execute a rover).2) = false →
  execute (a +:+ b) rover = execute b (execute a rover).2.
Proof.
  intros Hl Hreg Hstop.
  rewrite (execute_landed (a +:+ b)), (execute_landed a) in * by done.
  simpl in *. set (rover0 := setState rover (setStopped (state rover) false)) in *.
  rewrite execute_loop_app by done.
  set (rover1 := execute_loop a rover0) in *.
  assert (landed rover1 = true) as Hl1.
  { subst rover1. by rewrite (proj2 (execute_loop_registry a rover0)). }
  rewrite (execute_landed b) by done.
  assert (setState rover1 (setStopped (state rover1) false) = rover1) as ->; [|done].
  destruct rover1 as [ss [x y d stopped] ops l]. simpl in *. by subst.
Qed.

(** X11. A command string of registered tokens that ends with a rotation
    returns with the stopped flag down, whatever was vetoed before it: the
    flag tells about the last operation only. *)
Theorem execute_ends_with_rotation (pre : string) (key : ascii) clockwise rover :
  landed rover = true →
  all_registered (operations rover) pre = true →
  operations rover !! key = Some (if clockwise then RotateRight else RotateLeft) →
  isStopped (state (execute (pre +:+ String key "") rover).2) = false.
Proof.
  intros Hl Hreg Hkey. rewrite execute_landed by done. simpl.
  set (rover0 := setState rover (setStopped (state rover) false)).
  rewrite execute_loop_app by done. simpl.
  rewrite (proj1 (execute_loop_registry pre rover0)). simpl.
  rewrite Hkey. by destruct clockwise.
Qed.

(** ** What an execute leaves alone *)

Lemma Operation_execute_sensors_rel (R : relation (list T)) (HR : PreOrder R) :
  (∀ ss x y, R ss (danger_loop ss x y).2) →
  ∀ op rover, R (sensors rover) (sensors (Operation_execute op rover)).
Proof.
  intros Hstep op.
  induction op as [ | | | | ops IH] using Operation_nested_ind; intros rover;
    try (simpl; rewrite execute_move_unfold; by apply Hstep);
    try (simpl; reflexivity).
  revert rover. induction IH as [|o rest Ho _ IHrest]; intros rover; [reflexivity|].
  rewrite Compose_execute_cons. destruct (isStopped (state rover)); [reflexivity|].
  trans (sensors (Operation_execute o rover)); [apply Ho | apply IHrest].
Qed.

Lemma execute_loop_sensors_rel (R : relation (list T)) (HR : PreOrder R) :
  (∀ ss x y, R ss (danger_loop ss x y).2) →
  ∀ (commands : string) rover, R (sensors rover) (sensors (execute_loop commands rover)).
Proof.
  intros Hstep commands.
  induction commands as [|key rest IH]; intros rover; simpl; [reflexivity|].
  destruct (operations rover !! key) as [op|]; [|reflexivity].
  trans (sensors (Operation_execute op rover));
    [by apply Operation_execute_sensors_rel | apply IH].
Qed.

Lemma danger_loop_length ss x y : length (danger_loop ss x y).2 = length ss.
Proof.
  induction ss as [|s ss IH]; simpl; [done|].
  destruct (is_safe s x y) as [safe s']. destruct safe; simpl; [|done].
  destruct (danger_loop ss x y) as [danger rest']. simpl in *. by rewrite IH.
Qed.

(** X12. No [execute] changes the bindings of the commands, the landed flag or
    the number of sensors; when the sensors are free of side effects, it
    leaves them as they are. *)
Theorem execute_frame (commands : string) rover :
  let rover' := (execute commands rover).2 in
  operations rover' = operations rover ∧
  landed rover' = landed rover ∧
  length (sensors rover') = length (sensors rover) ∧
  (side_effect_free (sensors rover) → sensors rover' = sensors rover).
Proof.
  intros rover'. subst rover'.
  destruct (execute_registry commands rover) as [Hops Hl].
  split; [done|]. split; [done|].
  unfold execute. destruct (landed rover); simpl; [|done].
  set (rover0 := setState rover (setStopped (state rover) false)).
  change (sensors rover) with (sensors rover0). split.
  - apply (execute_loop_sensors_rel (λ a b, length b = length a)).
    + split; [by intros a | intros a b c Hab Hbc; congruence].
    + intros ss x y. apply danger_loop_length.
  - apply (execute_loop_sensors_rel (λ a b, side_effect_free a → b = a)).
    + split; [by intros a | intros a b c Hab Hbc Ha].
      rewrite <- (Hab Ha). apply Hbc. by rewrite (Hab Ha).
    + intros ss x y. apply danger_loop_side_effect_free.
Qed.

(** ** The order in which sensors are asked *)

Lemma danger_loop_all_safe ss x y :
  (∀ p, p ∈ ss → (is_safe p x y).1 = true) →
  danger_loop ss x y = (false, (λ p, (is_safe p x y).2) <$> ss).
Proof.
  induction ss as [|s ss IH]; intros Hsafe; simpl; [done|].
  assert ((is_safe s x y).1 = true) as Hs by (apply Hsafe, elem_of_cons; by left).
  destruct (is_safe s x y) as [safe s']. simpl in Hs. subst safe. simpl.
  rewrite IH; [done|]. intros p Hp. apply Hsafe, elem_of_cons. by right.
Qed.

(** X13. [danger_exists] asks the sensors in the order of the vector, each one
    once, and stops at the first that answers unsafe: the sensors behind it
    are not asked. With all sensors answering safe, each one is asked once. *)
Theorem danger_exists_short_circuit rover x y :
  (∀ (pre post : list T) (s : T),
     sensors rover = pre ++ s :: post →
     (∀ p, p ∈ pre → (is_safe p x y).1 = true) →
     (is_safe s x y).1 = false →
     danger_exists rover x y =
       (true, setSensors rover
                (((λ p, (is_safe p x y).2) <$> pre) ++ (is_safe s x y).2 :: post))) ∧
  ((∀ p, p ∈ sensors rover → (is_safe p x y).1 = true) →
     danger_exists rover x y =
       (false, setSensors rover ((λ p, (is_safe p x y).2) <$> sensors rover))).
Proof.
  split.
  - intros pre post s Hss Hpre Hs. unfold danger_exists. rewrite Hss. clear Hss.
    assert (danger_loop (pre ++ s :: post) x y =
              (true, ((λ p, (is_safe p x y).2) <$> pre) ++ (is_safe s x y).2 :: post))
      as ->; [|done].
    induction pre as [|p pre IH]; simpl.
    + destruct (is_safe s x y) as [safe s']. simpl in Hs. by subst safe.
    + assert ((is_safe p x y).1 = true) as Hp by (apply Hpre, elem_of_cons; by left).
      destruct (is_safe p x y) as [safe p']. simpl in Hp. subst safe. simpl.
      rewrite IH; [done|]. intros q Hq. apply Hpre, elem_of_cons. by right.
  - intros Hsafe. unfold danger_exists. by rewrite danger_loop_all_safe.
Qed.

(** ** A rover that cannot move *)

Lemma Operation_execute_blocked op :
  ∀ rover,
    side_effect_free (sensors rover) →
    (∀ x y, (danger_loop (sensors rover) x y).1 = true) →
    sensors (Operation_execute op rover) = sensors rover ∧
    getX (state (Operation_execute op rover)) = getX (state rover) ∧
    getY (state (Operation_execute op rover)) = getY (state rover).
Proof.
  induction op as [ | | | | ops IH] using Operation_nested_ind;
    intros rover Hfree Hdanger;
    try (simpl; rewrite execute_move_unfold, Hdanger; simpl;
         by rewrite danger_loop_side_effect_free);
    try done.
  revert rover Hfree Hdanger.
  induction IH as [|o rest Ho _ IHrest]; intros rover Hfree Hdanger; [done|].
  rewrite Compose_execute_cons. destruct (isStopped (state rover)); [done|].
  destruct (Ho rover Hfree Hdanger) as (Hs & Hx & Hy).
  rewrite <- Hs, <- Hx, <- Hy. apply IHrest; by rewrite Hs.
Qed.

(** X14. When the sensors are free of side effects and leave no cell safe, no
    [execute] moves the rover: whatever the commands, it ends on the cell
    where it started. *)
Theorem execute_blocked (commands : string) rover :
  side_effect_free (sensors rover) →
  (∀ x y, ∃ s, s ∈ sensors rover ∧ (is_safe s x y).1 = false) →
  getX (state (execute commands rover).2) = getX (state rover) ∧
  getY (state (execute commands rover).2) = getY (state rover).
Proof.
  intros Hfree Hunsafe.
  assert (∀ x y, (danger_loop (sensors rover) x y).1 = true) as Hdanger.
  { intros x y. by apply danger_loop_true. }
  unfold execute. destruct (landed rover); simpl; [|done].
  set (rover0 := setState rover (setStopped (state rover) false)).
  change (getX (state rover)) with (getX (state rover0)).
  change (getY (state rover)) with (getY (state rover0)).
  assert (side_effect_free (sensors rover0)) as Hfree0 by done.
  assert (∀ x y, (danger_loop (sensors rover0) x y).1 = true) as Hdanger0 by done.
  clearbody rover0. clear Hfree Hunsafe Hdanger.
  revert rover0 Hfree0 Hdanger0.
  induction commands as [|key rest IH]; intros rover0 Hfree0 Hdanger0; simpl; [done|].
  destruct (operations rover0 !! key) as [op|]; [|done].
  destruct (Operation_execute_blocked op rover0 Hfree0 Hdanger0) as (Hs & Hx & Hy).
  rewrite <- Hx, <- Hy. apply IH; by rewrite Hs.
Qed.

(** ** What the stopped flag tells after a call *)

Lemma execute_loop_not_stopped (commands : string) :
  ∀ rover, isStopped (state (execute_loop commands rover)) = false →
           all_registered (operations rover) commands = true.
Proof.
  induction commands as [|key rest IH]; intros rover Hstop; simpl in *; [done|].
  destruct (operations rover !! key) as [op|]; [|done].
  rewrite <- (proj1 (Operation_execute_registry op rover)). by apply IH.
Qed.

(** X15. When [execute] returns with the stopped flag down, every token of the
    command string was registered, and the rover is what the operations of
    all the tokens, invoked in their order, have made of it. *)
Theorem execute_not_stopped_registered (commands : string) rover :
  landed rover = true →
  isStopped (state (execute commands rover).2) = false →
  all_registered (operations rover) commands = true ∧
  ∃ ops : list Operation,
    Forall2 (λ key op, operations rover !! key = Some op)
      (list_ascii_of_string commands) ops ∧
    (execute commands rover).2
      = apply_all ops (setState rover (setStopped (state rover) false)).
Proof.
  intros Hl. rewrite execute_landed by done. simpl.
  set (rover0 := setState rover (setStopped (state rover) false)).
  change (operations rover) with (operations rover0).
  clearbody rover0. intros Hstop. split; [by apply execute_loop_not_stopped|].
  revert rover0 Hstop.
  induction commands as [|key rest IH]; intros rover0 Hstop; simpl in *.
  - exists []. split; [constructor | done].
  - destruct (operations rover0 !! key) as [op|] eqn:Hkey; [|done].
    destruct (IH _ Hstop) as (ops & Hall & Heq).
    exists (op :: ops). split; [|done].
    constructor; [done|].
    by rewrite (proj1 (Operation_execute_registry op rover0)) in Hall.
Qed.

(** ** Operations without moves *)

(** X16. An operation that holds no move, at any depth, asks no sensor and
    leaves the rover on its cell. *)
Theorem moveless_frame op rover :
  moveless op = true →
  sensors (Operation_execute op rover) = sensors rover ∧
  getX (state (Operation_execute op rover)) = getX (state rover) ∧
  getY (state (Operation_execute op rover)) = getY (state rover).
Proof.
  revert rover.
  induction op as [ | | | | ops IH] using Operation_nested_ind;
    intros rover Hop; try done.
  change (forallb moveless ops = true) in Hop.
  revert rover Hop.
  induction IH as [|o rest Ho _ IHrest]; intros rover Hop; [done|].
  simpl in Hop. apply andb_true_iff in Hop as [Ho' Hrest].
  rewrite Compose_execute_cons. destruct (isStopped (state rover)); [done|].
  destruct (Ho rover Ho') as (Hs & Hx & Hy).
  rewrite <- Hs, <- Hx, <- Hy. by apply IHrest.
Qed.

(** ** The builder *)

Lemma program_all_app (l1 l2 : list (ascii * Operation)) (b : RoverBuilder T) :
  program_all (l1 ++ l2) b = program_all l2 (program_all l1 b).
Proof. unfold program_all. apply foldl_app. Qed.

Lemma program_all_sensors (l : list (ascii * Operation)) :
  ∀ b : RoverBuilder T, builder_sensors (program_all l b) = builder_sensors b.
Proof.
  induction l as [|[key op] l IH]; intros b; [done|].
  change (program_all ((key, op) :: l) b) with (program_all l (program_command key op b)).
  by rewrite IH.
Qed.

Lemma program_all_other (l : list (ascii * Operation)) (key : ascii) :
  ∀ b : RoverBuilder T,
    key ∉ l.*1 →
    builder_operations (program_all l b) !! key = builder_operations b !! key.
Proof.
  induction l as [|[key' op] l IH]; intros b Hkey; [done|].
  change (program_all ((key', op) :: l) b) with (program_all l (program_command key' op b)).
  simpl in Hkey. apply not_elem_of_cons in Hkey as [Hne Hkey].
  rewrite IH by done. simpl. by rewrite lookup_insert_ne.
Qed.

(** X17. The rover built after a run of [program_command] calls binds each key
    to the operation of the last call for that key, keeps the bindings of
    the keys no call names, and has the sensors of the builder. *)
Theorem build_program_all (bindings : list (ascii * Operation)) (b : RoverBuilder T) :
  let rover := build (program_all bindings b) in
  (∀ l1 key op l2,
     bindings = l1 ++ (key, op) :: l2 → key ∉ l2.*1 →
     operations rover !! key = Some op) ∧
  (∀ key, key ∉ bindings.*1 →
     operations rover !! key = builder_operations b !! key) ∧
  sensors rover = builder_sensors b.
Proof.
  simpl. split; [|split].
  - intros l1 key op l2 -> Hkey. rewrite program_all_app.
    change (program_all ((key, op) :: l2) (program_all l1 b))
      with (program_all l2 (program_command key op (program_all l1 b))).
    rewrite program_all_other by done. simpl. apply lookup_insert_eq.
  - intros key Hkey. by apply program_all_other.
  - apply program_all_sensors.
Qed.

(** X18. The rover built after a run of [add_sensor] calls holds the sensors
    the builder had, followed by the new ones in the order of the calls;
    its bindings are those of the builder, it has not landed and its state
    is the default one. *)
Theorem build_add_all (new : list T) (b : RoverBuilder T) :
  let rover := build (add_all new b) in
  sensors rover = builder_sensors b ++ new ∧
  operations rover = builder_operations b ∧
  landed rover = false ∧
  state rover = State_default.
Proof.
  simpl. revert b. induction new as [|s new IH]; intros b.
  - simpl. by rewrite app_nil_r.
  - change (add_all (s :: new) b) with (add_all new (add_sensor s b)).
    destruct (IH (add_sensor s b)) as (Hs & Hops & _).
    rewrite Hs, Hops. simpl. by rewrite <- app_assoc.
Qed.

End engine_facts.

(** * The further properties at concrete rovers *)

Example print_examples :
  print "" example_rover = "(0, 0) NORTH" ∧
  print "" (execute "ff" example_rover).2 = "(0, 1) NORTH stopped" ∧
  print "at " (execute "lfb" free_rover).2 = "at (0, 0) WEST" ∧
  print "" (execute "bb" free_rover).2 = "(0, -2) NORTH" ∧
  print "" (land (3, 4) (2, 0) free_rover) = "unknown".
Proof. vm_compute. repeat split. Qed.

(** In one call the composite is skipped after the veto; in a call of its
    own it runs and asks the sensor once more. *)
Example execute_split_needs_running :
  isStopped (state (execute "ff" example_rover).2) = true ∧
  (execute "ffc" example_rover).2 ≠ (execute "c" (execute "ff" example_rover).2).2.
Proof.
  split; [reflexivity|]. intros Heq.
  apply (f_equal (λ r, queries <$> sensors r)) in Heq.
  vm_compute in Heq. discriminate Heq.
Qed.

Lemma canonical_NORTH : canonical Direction.NORTH.
Proof. apply canonical_cases. by left. Defined.

Lemma getName_spec_witness :
  getName (2, 0) = "unknown" ∧ Direction.NORTH = (0, 1).
Proof.
  split.
  - apply (proj1 (getName_spec (2, 0))). rewrite canonical_cases.
    intros [H | [H | [H | H]]]; discriminate H.
  - exact (proj2 (getName_spec Direction.NORTH) (0, 1) canonical_NORTH eq_refl).
Defined.

Lemma print_unknown_iff_witness :
  print "" (land (3, 4) (2, 0) free_rover) = "unknown".
Proof.
  apply (proj2 (print_unknown_iff "" (land (3, 4) (2, 0) free_rover))).
  rewrite canonical_cases. intros [H | [H | [H | H]]]; discriminate H.
Defined.

(** The example rover and the rover without sensors are written alike. *)
Lemma print_injective_witness : state example_rover = state free_rover.
Proof.
  apply (print_injective "" example_rover free_rover); [exact canonical_NORTH|].
  vm_compute. reflexivity.
Defined.

Lemma Rotate_compass_witness :
  getDirection (state (Operation_execute RotateRight example_rover)) = Direction.EAST ∧
  getDirection (state (Operation_execute RotateLeft example_rover)) = Direction.WEST.
Proof. exact (proj1 (Rotate_compass example_rover) eq_refl). Defined.

Lemma execute_canonical_witness :
  canonical (getDirection (state (execute "ffrcl" example_rover).2)).
Proof. apply (execute_canonical "ffrcl" example_rover). exact canonical_NORTH. Defined.

Lemma Rotate_inverse_witness :
  Operation_execute RotateRight (Operation_execute RotateLeft example_rover)
    = example_rover ∧
  Operation_execute RotateLeft (Operation_execute RotateRight example_rover)
    = example_rover.
Proof. apply (Rotate_inverse example_rover); solve_in_int. Defined.

(** One step north from (0, 0) and back. *)
Lemma Move_round_trip_witness :
  state (Operation_execute MoveBackward (Operation_execute MoveForward example_rover))
    = mkState 0 0 Direction.NORTH false.
Proof.
  apply (Move_round_trip example_rover true); try solve_in_int; reflexivity.
Defined.

Lemma Compose_flatten_witness :
  Operation_execute (Compose [MoveForward]) example_rover
    = Operation_execute MoveForward example_rover.
Proof. exact (proj2 (Compose_flatten [] example_rover) MoveForward eq_refl). Defined.

Lemma execute_split_witness :
  execute ("f" +:+ "rf") example_rover = execute "rf" (execute "f" example_rover).2.
Proof. apply (execute_split "f" "rf" example_rover); reflexivity. Defined.

Lemma Fence_side_effect_free : side_effect_free [fence].
Proof. intros s x y _. reflexivity. Defined.

Lemma execute_frame_witness :
  sensors (execute "ffrcl" fenced_rover).2 = [fence].
Proof.
  apply (proj2 (proj2 (proj2 (execute_frame "ffrcl" fenced_rover)))).
  exact Fence_side_effect_free.
Defined.

(** At (0, 2) the first sensor answers safe, the second unsafe: the third
    is not asked. *)
Lemma danger_exists_short_circuit_witness :
  danger_exists watched_rover 0 2 =
    (true, setSensors watched_rover
             [mkHazardSensor [(5, 5)] 1; mkHazardSensor [(0, 2)] 1;
              mkHazardSensor [(0, 2)] 0]).
Proof.
  assert (∀ p, p ∈ [mkHazardSensor [(5, 5)] 0] → (is_safe p 0 2).1 = true) as Hpre.
  { intros p Hp. apply list_elem_of_singleton in Hp. rewrite Hp. reflexivity. }
  exact (proj1 (danger_exists_short_circuit watched_rover 0 2)
           [mkHazardSensor [(5, 5)] 0] [mkHazardSensor [(0, 2)] 0]
           (mkHazardSensor [(0, 2)] 0) eq_refl Hpre eq_refl).
Defined.

Lemma execute_blocked_witness :
  getX (state (execute "ffrfflbc" fenced_rover).2) = 0 ∧
  getY (state (execute "ffrfflbc" fenced_rover).2) = 0.
Proof.
  apply (execute_blocked "ffrfflbc" fenced_rover); [exact Fence_side_effect_free|].
  intros x y. exists fence. split; [|reflexivity].
  apply list_elem_of_singleton. reflexivity.
Defined.

Lemma execute_not_stopped_registered_witness :
  all_registered (operations free_rover) "ffrff" = true.
Proof.
  exact (proj1 (execute_not_stopped_registered "ffrff" free_rover eq_refl eq_refl)).
Defined.

Lemma moveless_frame_witness :
  let op := Compose [RotateLeft; Compose [RotateRight; RotateRight]] in
  sensors (Operation_execute op example_rover) = sensors example_rover ∧
  getX (state (Operation_execute op example_rover)) = 0 ∧
  getY (state (Operation_execute op example_rover)) = 0.
Proof. intros op. apply (moveless_frame op example_rover). reflexivity. Defined.

(** Of two calls for f the second one counts. *)
Lemma build_program_all_witness :
  operations (build (program_all [("f"%char, MoveForward); ("f"%char, MoveBackward)]
                       (RoverBuilder_new (T := HazardSensor)))) !! "f"%char
    = Some MoveBackward.
Proof.
  apply (proj1 (build_program_all
                  [("f"%char, MoveForward); ("f"%char, MoveBackward)]
                  (RoverBuilder_new (T := HazardSensor)))
           [("f"%char, MoveForward)] "f"%char MoveBackward []); [reflexivity|].
  apply not_elem_of_nil.
Defined.

(** After ff the rover is stopped by the veto; the r that follows lowers
    the flag. *)
Lemma execute_ends_with_rotation_witness :
  isStopped (state (execute "ff" example_rover).2) = true ∧
  isStopped (state (execute "ffr" example_rover).2) = false.
Proof.
  split; [reflexivity|].
  apply (execute_ends_with_rotation "ff" "r"%char true example_rover); reflexivity.
Defined.
